(** * HtmlText: visible-text extraction, cleanup, tokenization, word ranking

    A shallow embedding of [src/html_text.py] and the properties of its
    tag stack, its text handlers, its character cleanup, its tokenizer and
    its frequency ranker.

    Conventions of the embedding.
    - A Python [str] is a [string]; a character is a code point below 256
      (the Latin-1 range), on which [\d], [str.split] and [str.lower] are
      tabulated below exactly as CPython classifies them.
    - A Python [int] is a [Z].
    - [self._tags] is a [list frame] in Python's order: [append] adds at the
      end, [pop()] and [[-1]] use the end.
    - A method of the class is a function from the object's state to an
      outcome and the state the call leaves behind; an exception leaves the
      mutations made before it.
    - [HTMLParser.feed] is the standard library's scanner; it is represented
      by the sequence of handler calls it makes. *)

From Stdlib Require Import ZArith Ascii.
From Equations Require Import Equations.
From stdpp Require Import base tactics option list sorting gmap strings pretty.

Local Open Scope Z_scope.

(** ** The object and its outcome monad *)

Module Py.

(** The exceptions the embedded code can raise: [list.pop()] on an empty
    list and [l[-1]] on an empty list both raise [IndexError]. *)
Inductive exn : Set :=
| IndexError.

Inductive outcome (A : Type) : Type :=
| Returns (a : A)
| Raises (e : exn).
Arguments Returns {A} a.
Arguments Raises {A} e.

(** [list.pop()]: the last element and the list without it. *)
Definition list_pop {A} (l : list A) : option (A * list A) :=
  match last l with
  | Some x => Some (x, take (length l - 1)%nat l)
  | None => None
  end.

(** [l[:k]] for a Python integer [k]: a negative bound counts from the
    end, and both cases are clamped to the list. *)
Definition slice_to {A} (l : list A) (k : Z) : list A :=
  if decide (k < 0)
  then take (Z.to_nat (Z.max 0 (Z.of_nat (length l) + k))) l
  else take (Z.to_nat k) l.

End Py.
Export Py.

(** ** Tag frames and the parser object *)

Definition frame : Type := string * bool.

Record HtmlText : Type := mkHtmlText {
  document_content : string;
  _tags : list frame;
  parsed_text : string
}.

Definition with_tags (ts : list frame) (self : HtmlText) : HtmlText :=
  {| document_content := document_content self;
     _tags := ts;
     parsed_text := parsed_text self |}.

Definition with_parsed_text (t : string) (self : HtmlText) : HtmlText :=
  {| document_content := document_content self;
     _tags := _tags self;
     parsed_text := t |}.

(** A method: state in, outcome and state out. *)
Definition M (A : Type) : Type := HtmlText → outcome A * HtmlText.

Global Instance M_ret : MRet M := λ A a self, (Returns a, self).

Global Instance M_bind : MBind M := λ A B k m self,
  match m self with
  | (Returns a, self') => k a self'
  | (Raises e, self') => (Raises e, self')
  end.

(** [HtmlText.__init__]. *)
Definition init : HtmlText :=
  {| document_content := ""; _tags := [("", false)]; parsed_text := "" |}.

Definition TAGS_TO_EXCLUDE : list string :=
  ["!--"; "audio"; "canvas"; "iframe"; "noscript"; "script"; "source";
   "style"; "title"; "video"].

(** [self._tags.append((tag, hidden))]. *)
Definition handle_starttag (tag : string) (attrs : list (string * option string))
  : M unit := λ self,
  let hidden := if decide ("hidden" ∈ (fst <$> attrs)) then true else false in
  (Returns tt, with_tags (_tags self ++ [(tag, hidden)]) self).

(** The value of an expression together with the equation that names it. *)
Definition inspect {A} (a : A) : {b : A | a = b} := exist _ a eq_refl.

(** [while tag != self._tags.pop()[0]: ...]: each turn pops one frame and
    compares its name with [tag]; the loop ends at the first equal name, or
    with the [IndexError] of a pop on the emptied list. *)
Equations? handle_endtag (tag : string) (self : HtmlText) : outcome unit * HtmlText
  by wf (length (_tags self)) lt :=
  handle_endtag tag self with inspect (list_pop (_tags self)) := {
    | exist _ None _ => (Raises IndexError, self)
    | exist _ (Some (fr, rest)) Hpop =>
        if decide (tag ≠ fr.1)
        then handle_endtag tag (with_tags rest self)
        else (Returns tt, with_tags rest self) }.
Proof.
  unfold list_pop in Hpop.
  destruct (last (_tags self)) eqn:Hlast; [|done].
  injection Hpop as _ <-. simpl. rewrite length_take.
  destruct (_tags self); [done|]. simpl. lia.
Qed.

(** [handle_data]: [self._tags[-1]] is read; the text is appended when the
    top name is not in [TAGS_TO_EXCLUDE] and the top flag [is False]. *)
Definition handle_data (raw_text : string) : M unit := λ self,
  match last (_tags self) with
  | None => (Raises IndexError, self)
  | Some (name, hidden) =>
      if negb (bool_decide (name ∈ TAGS_TO_EXCLUDE)) && negb hidden
      then (Returns tt, with_parsed_text (parsed_text self +:+ raw_text) self)
      else (Returns tt, self)
  end.

(** The handler calls [HTMLParser.feed] makes while it scans a document.
    [handle_startendtag] is the base class's: the start handler, then the
    end handler. Comments, declarations and processing instructions reach
    base-class handlers that do nothing. *)
Inductive event : Type :=
| Starttag (tag : string) (attrs : list (string * option string))
| Endtag (tag : string)
| Startendtag (tag : string) (attrs : list (string * option string))
| Data (raw_text : string)
| Comment (data : string).

Definition handle_startendtag (tag : string) (attrs : list (string * option string))
  : M unit :=
  handle_starttag tag attrs ;; handle_endtag tag.

Definition dispatch (e : event) : M unit :=
  match e with
  | Starttag tag attrs => handle_starttag tag attrs
  | Endtag tag => handle_endtag tag
  | Startendtag tag attrs => handle_startendtag tag attrs
  | Data raw_text => handle_data raw_text
  | Comment _ => mret tt
  end.

Fixpoint feed (events : list event) : M unit :=
  match events with
  | [] => mret tt
  | e :: events' => dispatch e ;; feed events'
  end.

(** [parse_document]: reset the stack and the text, then feed the document.
    [scan] is the event sequence the standard library's scanner produces
    for a document. *)
Definition parse_document (scan : string → list event) : M unit := λ self,
  let self := with_tags [("", false)] self in
  let self := with_parsed_text "" self in
  feed (scan (document_content self)) self.

(** ** Characters and the string methods the code calls *)

Module Str.

(** [\d] on the code points below 256. *)
Definition is_digit (c : ascii) : bool :=
  let n := N_of_ascii c in ((48 <=? n) && (n <=? 57))%N.

(** [str.isspace] on the code points below 256; [str.split()] splits at
    these. *)
Definition is_space (c : ascii) : bool :=
  let n := N_of_ascii c in
  (((9 <=? n) && (n <=? 13)) || ((28 <=? n) && (n <=? 32))
   || (n =? 133) || (n =? 160))%N.

(** [str.lower] on one code point below 256. *)
Definition lower_char (c : ascii) : ascii :=
  let n := N_of_ascii c in
  if (((65 <=? n) && (n <=? 90))
      || ((192 <=? n) && (n <=? 222) && negb (n =? 215)))%N
  then ascii_of_N (n + 32) else c.

Fixpoint lower (s : string) : string :=
  match s with
  | EmptyString => EmptyString
  | String c s' => String (lower_char c) (lower s')
  end.

(** [s.startswith(p)], returning what follows [p]. *)
Fixpoint strip_prefix (p s : string) : option string :=
  match p, s with
  | EmptyString, _ => Some s
  | String a p', String b s' =>
      if decide (a = b) then strip_prefix p' s' else None
  | String _ _, EmptyString => None
  end.

(** [new.join(s)] with [new] also before the first and after the last
    character: what [s.replace("", new)] returns. *)
Fixpoint intersperse (new s : string) : string :=
  match s with
  | EmptyString => new
  | String c s' => new +:+ String c (intersperse new s')
  end.

(** [s.replace(old, new)]: occurrences of [old] are found from the left
    and do not overlap. *)
Equations? replace_go (a : ascii) (old' new s : string) : string
  by wf (String.length s) lt :=
  replace_go a old' new EmptyString := EmptyString;
  replace_go a old' new (String c s')
    with inspect (strip_prefix (String a old') (String c s')) := {
      | exist _ (Some rest) Hp => new +:+ replace_go a old' new rest
      | exist _ None _ => String c (replace_go a old' new s') }.
Proof.
  - assert (Hlen : ∀ p t r, strip_prefix p t = Some r →
                            (String.length r ≤ String.length t)%nat).
    { clear. induction p as [|x p IH]; intros [|y t] r Hr; simplify_eq/=;
        [lia..|]. case_decide; [|done]. apply IH in Hr. lia. }
    simpl in Hp. case_decide; [|done]. apply Hlen in Hp. simpl. lia.
  - simpl. lia.
Qed.

Definition replace (old new s : string) : string :=
  match old with
  | EmptyString => intersperse new s
  | String a old' => replace_go a old' new s
  end.

(** [s.split()]: maximal runs of characters that are not whitespace. *)
Fixpoint split_go (word s : string) : list string :=
  match s with
  | EmptyString => if decide (word = EmptyString) then [] else [word]
  | String c s' =>
      if is_space c
      then (if decide (word = EmptyString) then [] else [word]) ++ split_go EmptyString s'
      else split_go (word +:+ String c EmptyString) s'
  end.

Definition split (s : string) : list string := split_go EmptyString s.

End Str.

(** ** Character cleanup *)

Definition symbols_to_remove : list string := ["&nbsp;"; "'"].

Definition symbols_to_replace : list string :=
  ["?"; "!"; ":"; ";"; "-"; "["; "]"; "{"; "}"; "("; ")"; "'";
   String "034"%char EmptyString; "...";
   String "010"%char EmptyString; String "009"%char EmptyString].

Definition is_digit_at (c : option ascii) : bool :=
  match c with Some d => Str.is_digit d | None => false end.

Definition head_char (s : string) : option ascii :=
  match s with EmptyString => None | String c _ => Some c end.

(** [re.sub(r'((?<!\d))[.,]((?!\d))', r'\1 \2', text)]: both groups are
    empty, so a match is replaced by one space. A period or comma matches
    when the character before it (if any) is not a digit and the character
    after it (if any) is not a digit; [prev] is the character before. *)
Fixpoint sub_nan_pattern (prev : option ascii) (text : string) : string :=
  match text with
  | EmptyString => EmptyString
  | String c text' =>
      let matches :=
        negb (is_digit_at prev)
        && bool_decide (c = "."%char ∨ c = ","%char)
        && negb (is_digit_at (head_char text')) in
      String (if matches then " "%char else c) (sub_nan_pattern (Some c) text')
  end.

Definition remove_symbols (text : string) : string :=
  foldl (λ text symbol, Str.replace symbol "" text) text symbols_to_remove.

Definition replace_symbols (text : string) : string :=
  foldl (λ text symbol, Str.replace symbol " " text) text symbols_to_replace.

Definition remove_extra_characters (text : string) : string :=
  let text := remove_symbols text in
  let text := replace_symbols text in
  sub_nan_pattern None text.

(** ** Tokenization *)

Definition tokenize (text : string) : list string :=
  let words := Str.split text in
  Str.lower <$> words.

(** ** Frequency ranking *)

(** [words.count(word)]. *)
Definition count (word : string) (words : list string) : Z :=
  Z.of_nat (length (filter (word =.) words)).

(** [{word: words.count(word) for word in set(words)}]. *)
Definition word_frequency (words : list string) : gmap string Z :=
  set_to_map (λ word, (word, count word words)) (list_to_set words : gset string).

(** The sort key [(-item[1], item[0])] and Python's order on such tuples:
    first components as integers, then second components as strings by
    code point. *)
Definition sort_key (item : string * Z) : Z * string := (- item.2, item.1).

Definition key_le (k1 k2 : Z * string) : Prop :=
  k1.1 < k2.1 ∨ (k1.1 = k2.1 ∧ String.le k1.2 k2.2).

Definition item_le (i1 i2 : string * Z) : Prop :=
  key_le (sort_key i1) (sort_key i2).

Global Instance item_le_dec : RelDecision item_le.
Proof. intros i1 i2. unfold item_le, key_le. apply _. Defined.

(** [sorted(word_frequency.items(), key=...)]. *)
Definition sorted_frequency (words : list string) : list (string * Z) :=
  merge_sort item_le (map_to_list (word_frequency words)).

Definition find_most_frequent_words (words : list string) (max_ : Z)
  : list (string * Z) :=
  let sorted_frequency := sorted_frequency words in
  slice_to sorted_frequency (Z.min max_ (Z.of_nat (length sorted_frequency))).

(** ** What the specification says about [handle_data]

    The decision rule for a text-data event, for a given exclusion set:
    with [fr] the top frame, the text is appended when the name of [fr] is
    outside the set and [fr] is not hidden, and the text is left as it is
    otherwise. *)
Definition text_rule (exclusion : list string) : Prop :=
  ∀ (self : HtmlText) (raw_text : string) (fr : frame),
    last (_tags self) = Some fr →
    ((fr.1 ∉ exclusion) ∧ fr.2 = false →
       handle_data raw_text self
       = (Returns tt, with_parsed_text (parsed_text self +:+ raw_text) self))
    ∧ (¬ ((fr.1 ∉ exclusion) ∧ fr.2 = false) →
       handle_data raw_text self = (Returns tt, self)).

(** The exclusion set as the specification lists it. *)
Definition SPEC_EXCLUSION_SET : list string :=
  ["comment"; "audio"; "canvas"; "iframe"; "noscript"; "script"; "source";
   "style"; "title"; "video"].

(** ** Notions the statements about text and ranking use *)

(** [x in s] for a character [x]. *)
Fixpoint occurs (x : ascii) (s : string) : bool :=
  match s with
  | EmptyString => false
  | String c s' => bool_decide (c = x) || occurs x s'
  end.

(** The text with every [x] taken out and nothing put in its place. *)
Fixpoint delete_char (x : ascii) (s : string) : string :=
  match s with
  | EmptyString => EmptyString
  | String c s' =>
      if decide (c = x) then delete_char x s' else String c (delete_char x s')
  end.

(** The text cut at every single whitespace character: between two
    adjacent whitespace characters, and before a leading or after a
    trailing one, lies an empty piece. *)
Fixpoint pieces (s : string) : list string :=
  match s with
  | EmptyString => [EmptyString]
  | String c s' =>
      if Str.is_space c then EmptyString :: pieces s'
      else match pieces s' with
           | p :: ps => String c p :: ps
           | [] => [String c EmptyString]
           end
  end.

(** The specification's tokenization: cut at whitespace, discard the
    empty tokens, lowercase each token. *)
Definition spec_tokenize (text : string) : list string :=
  Str.lower <$> filter (λ piece, piece ≠ EmptyString) (pieces text).

(** The text without its whitespace characters. *)
Fixpoint drop_spaces (s : string) : string :=
  match s with
  | EmptyString => EmptyString
  | String c s' =>
      if Str.is_space c then drop_spaces s' else String c (drop_spaces s')
  end.

(** The tokens written one after the other. *)
Definition join_tokens (tokens : list string) : string :=
  foldr String.app EmptyString tokens.

(** The ranking order: a higher count first, and among equal counts the
    token that is smaller by code point first. *)
Definition ranked_before (i1 i2 : string * Z) : Prop :=
  i2.2 < i1.2 ∨ (i1.2 = i2.2 ∧ String.compare i1.1 i2.1 = Lt).

(** The number of distinct tokens. *)
Definition distinct_count (words : list string) : Z :=
  Z.of_nat (size (list_to_set words : gset string)).

(** ** Notions the further properties use *)

(** Event sequences in which every start tag is closed by an end tag of
    the same name and the elements are properly nested; text, comments and
    self-closing tags may stand anywhere. *)
Inductive balanced : list event → Prop :=
| balanced_nil : balanced []
| balanced_data raw_text events :
    balanced events → balanced (Data raw_text :: events)
| balanced_comment data events :
    balanced events → balanced (Comment data :: events)
| balanced_startend tag attrs events :
    balanced events → balanced (Startendtag tag attrs :: events)
| balanced_element tag attrs inner events :
    balanced inner → balanced events →
    balanced (Starttag tag attrs :: inner ++ Endtag tag :: events).

(** The texts of the text-data events, in order. *)
Fixpoint data_texts (events : list event) : list string :=
  match events with
  | [] => []
  | Data raw_text :: events' => raw_text :: data_texts events'
  | _ :: events' => data_texts events'
  end.

(** The digits of a text, in order. *)
Fixpoint digits (s : string) : string :=
  match s with
  | EmptyString => EmptyString
  | String c s' => if Str.is_digit c then String c (digits s') else digits s'
  end.

(** The characters that the replacement loop turns into a space, and the
    apostrophe, which the removal loop deletes. *)
Definition cleaned_symbols : list ascii :=
  ["?"; "!"; ":"; ";"; "-"; "["; "]"; "{"; "}"; "("; ")"; "'"; "034";
   "010"; "009"]%char.

(** The characters on which the cleanup acts at all. *)
Definition special_chars : list ascii :=
  ("&" :: "." :: "," :: cleaned_symbols)%char.

(** The sum of the counts of a list of entries. *)
Definition total_count (items : list (string * Z)) : Z :=
  foldr Z.add 0 items.*2.

(** ** The pipeline of [run] *)




(** * Properties of the tag stack *)

Section TagStack.

Implicit Types (tag : string) (self : HtmlText) (ts : list frame) (fr : frame).

Lemma list_pop_snoc {A} (l : list A) (x : A) : list_pop (l ++ [x]) = Some (x, l).
Proof.
  unfold list_pop. rewrite last_snoc, length_app. simpl.
  replace (length l + 1 - 1)%nat with (length l) by lia.
  by rewrite take_app_length.
Qed.

Lemma with_tags_id self : with_tags (_tags self) self = self.
Proof. by destruct self. Qed.

(** One turn of the loop. *)
Lemma handle_endtag_step tag self :
  handle_endtag tag self =
  match list_pop (_tags self) with
  | None => (Raises IndexError, self)
  | Some (fr, rest) =>
      if decide (tag ≠ fr.1) then handle_endtag tag (with_tags rest self)
      else (Returns tt, with_tags rest self)
  end.
Proof.
  rewrite handle_endtag_equation_1.
  destruct (inspect (list_pop (_tags self))) as [[[fr rest]|] H];
    simpl; rewrite H; reflexivity.
Qed.

Lemma handle_endtag_nil tag self :
  handle_endtag tag (with_tags [] self) = (Raises IndexError, with_tags [] self).
Proof. by rewrite handle_endtag_step. Qed.

Lemma handle_endtag_snoc tag ts fr self :
  handle_endtag tag (with_tags (ts ++ [fr]) self) =
  if decide (tag ≠ fr.1) then handle_endtag tag (with_tags ts self)
  else (Returns tt, with_tags ts self).
Proof. rewrite handle_endtag_step. simpl. by rewrite list_pop_snoc. Qed.

(** A name that is nowhere in the stack drains it and underflows. *)
Lemma handle_endtag_drains tag ts self :
  tag ∉ ts.*1 →
  handle_endtag tag (with_tags ts self) = (Raises IndexError, with_tags [] self).
Proof.
  induction ts as [|fr ts IH] using rev_ind; intros Hnotin.
  - apply handle_endtag_nil.
  - rewrite handle_endtag_snoc. rewrite fmap_app in Hnotin.
    rewrite not_elem_of_app in Hnotin. destruct Hnotin as [Hts Hfr].
    case_decide as Hne; [by apply IH|].
    exfalso. apply Hfr. rewrite Hne. simpl. left.
Qed.

(** A name in the stack stops the loop at its topmost frame. *)
Lemma handle_endtag_found tag below fr above self :
  fr.1 = tag → tag ∉ above.*1 →
  handle_endtag tag (with_tags (below ++ fr :: above) self)
  = (Returns tt, with_tags below self).
Proof.
  intros Hfr. induction above as [|fr' above IH] using rev_ind; intros Hnotin.
  - rewrite handle_endtag_snoc. case_decide; [congruence|done].
  - replace (below ++ fr :: above ++ [fr']) with ((below ++ fr :: above) ++ [fr'])
      by (by rewrite <- app_assoc).
    rewrite handle_endtag_snoc. rewrite fmap_app, not_elem_of_app in Hnotin.
    destruct Hnotin as [Habove Hfr'].
    case_decide as Hne; [by apply IH|].
    exfalso. apply Hfr'. rewrite Hne. simpl. left.
Qed.

(** The topmost frame with a given name splits the stack. *)
Lemma topmost_frame tag ts :
  tag ∈ ts.*1 →
  ∃ below fr above, ts = below ++ fr :: above ∧ fr.1 = tag ∧ tag ∉ above.*1.
Proof.
  induction ts as [|fr ts IH] using rev_ind; intros Hin.
  - by apply elem_of_nil in Hin.
  - destruct (decide (fr.1 = tag)) as [Heq|Hne].
    + exists ts, fr, []. split_and!; [done..|]. apply not_elem_of_nil.
    + rewrite fmap_app, elem_of_app in Hin. destruct Hin as [Hin|Hin].
      * destruct (IH Hin) as (below & fr0 & above & -> & Hfr0 & Habove).
        exists below, fr0, (above ++ [fr]). split_and!; [|done|].
        -- by rewrite <- app_assoc.
        -- rewrite fmap_app, not_elem_of_app. split; [done|].
           simpl. rewrite list_elem_of_singleton. congruence.
      * simpl in Hin. rewrite list_elem_of_singleton in Hin. congruence.
Qed.

(** C10. An end tag whose name is in no frame of the stack pops every
    frame, the bottom one included, and then raises the [IndexError] of a
    pop on the empty list; an end tag whose name is in some frame returns
    normally, having removed that name's topmost frame and all above it. *)
Theorem handle_endtag_underflow tag self :
  (tag ∉ (_tags self).*1 →
     handle_endtag tag self = (Raises IndexError, with_tags [] self))
  ∧ (tag ∈ (_tags self).*1 →
     ∃ below fr above,
       _tags self = below ++ fr :: above ∧ fr.1 = tag ∧ (tag ∉ above.*1)
       ∧ handle_endtag tag self = (Returns tt, with_tags below self)).
Proof.
  split.
  - intros Hnotin. rewrite <- (with_tags_id self) at 1.
    by apply handle_endtag_drains.
  - intros Hin. destruct (topmost_frame _ _ Hin) as (below & fr & above & Hts & Hfr & Habove).
    exists below, fr, above. split_and!; [done..|].
    rewrite <- (with_tags_id self) at 1. rewrite Hts.
    by apply handle_endtag_found.
Qed.

Lemma handle_endtag_underflow_witness :
  handle_endtag "p" init = (Raises IndexError, with_tags [] init)
  ∧ ∃ below fr above,
      _tags (with_tags [("", false); ("p", false); ("b", true)] init)
        = below ++ fr :: above ∧ fr.1 = "p" ∧ ("p" ∉ above.*1)
      ∧ handle_endtag "p" (with_tags [("", false); ("p", false); ("b", true)] init)
        = (Returns tt, with_tags below init).
Proof.
  split.
  - apply (proj1 (handle_endtag_underflow "p" init)). compute_done.
  - apply (proj2 (handle_endtag_underflow "p"
             (with_tags [("", false); ("p", false); ("b", true)] init))).
    compute_done.
Defined.

(** C5. On the event sequence of the document [</p>], a single end tag
    with no start tag, the parse pops the bottom frame [("", false)],
    leaves the stack empty and ends in an [IndexError]. *)
Theorem unmatched_endtag_pops_sentinel :
  feed [Endtag "p"] init = (Raises IndexError, with_tags [] init)
  ∧ _tags (feed [Endtag "p"] init).2 = []
  ∧ parse_document (λ _, [Endtag "p"]) init = (Raises IndexError, with_tags [] init).
Proof. by vm_compute. Qed.

(** C6. A start tag returns normally and appends exactly one frame, with
    the tag's name; the frame's flag is [true] exactly when some attribute
    is named [hidden], whatever its value. *)
Theorem handle_starttag_pushes_frame tag (attrs : list (string * option string)) self :
  ∃ hidden : bool,
    handle_starttag tag attrs self
      = (Returns tt, with_tags (_tags self ++ [(tag, hidden)]) self)
    ∧ (hidden = true ↔ ∃ value, ("hidden", value) ∈ attrs)
    ∧ length (_tags (handle_starttag tag attrs self).2) = S (length (_tags self)).
Proof.
  unfold handle_starttag.
  exists (if decide ("hidden" ∈ attrs.*1) then true else false).
  split_and!.
  - done.
  - case_decide as H; split; try done.
    + intros _. apply list_elem_of_fmap in H.
      destruct H as ([name value] & Hname & Hin). simpl in Hname.
      subst name. by exists value.
    + intros [value Hin]. exfalso. apply H. apply list_elem_of_fmap.
      by exists ("hidden", value).
  - simpl. rewrite length_app. simpl. lia.
Qed.

End TagStack.

(** * Properties of the text-data handler *)

Section TextData.

Implicit Types (self : HtmlText) (fr : frame) (events : list event).

Lemma feed_app events1 events2 self :
  feed (events1 ++ events2) self =
  match feed events1 self with
  | (Returns _, self') => feed events2 self'
  | (Raises e, self') => (Raises e, self')
  end.
Proof.
  revert self. induction events1 as [|e events1 IH]; intros self; [done|].
  simpl. unfold mbind, M_bind.
  destruct (dispatch e self) as [[[]|x] self']; [apply IH|done].
Qed.

(** A text-data event under an excluded or hidden top frame changes
    nothing. *)
Lemma handle_data_skips self fr (raw_text : string) :
  last (_tags self) = Some fr →
  fr.1 ∈ TAGS_TO_EXCLUDE ∨ fr.2 = true →
  handle_data raw_text self = (Returns tt, self).
Proof.
  intros Hlast Hfr. unfold handle_data. rewrite Hlast.
  destruct fr as [name hidden]. simpl in Hfr.
  destruct Hfr as [Hname| ->].
  - by rewrite (bool_decide_eq_true_2 _ Hname).
  - by rewrite andb_false_r.
Qed.

Lemma handle_data_appends self fr (raw_text : string) :
  last (_tags self) = Some fr →
  fr.1 ∉ TAGS_TO_EXCLUDE → fr.2 = false →
  handle_data raw_text self
  = (Returns tt, with_parsed_text (parsed_text self +:+ raw_text) self).
Proof.
  intros Hlast Hname Hhidden. unfold handle_data. rewrite Hlast.
  destruct fr as [name hidden]. simpl in *. subst hidden.
  by rewrite (bool_decide_eq_false_2 _ Hname).
Qed.

(** C1, as the code has it. With the exclusion set of the code, whose
    first member is the name [!--], a text-data event appends its text
    exactly when the top frame's name is outside the set and the top frame
    is not hidden, and leaves the accumulated text as it is otherwise.
    Consequently a text-data event met under an excluded or hidden top
    frame contributes nothing to the parse: the parse with that event and
    the parse without it end in the same outcome and the same state. *)
Theorem handle_data_visibility :
  text_rule TAGS_TO_EXCLUDE
  ∧ ∀ events1 events2 (raw_text : string) self self1 fr,
      feed events1 self = (Returns tt, self1) →
      last (_tags self1) = Some fr →
      fr.1 ∈ TAGS_TO_EXCLUDE ∨ fr.2 = true →
      feed (events1 ++ Data raw_text :: events2) self
      = feed (events1 ++ events2) self.
Proof.
  split.
  - intros self raw_text fr Hlast. split.
    + intros [Hname Hhidden]. by eapply handle_data_appends.
    + intros Hnot. eapply handle_data_skips; [done|].
      destruct (decide (fr.1 ∈ TAGS_TO_EXCLUDE)) as [|Hname]; [by left|].
      right. destruct (fr.2); [done|]. exfalso. by apply Hnot.
  - intros events1 events2 raw_text self self1 fr Hfeed Hlast Hfr.
    rewrite !feed_app, Hfeed. simpl. unfold mbind, M_bind.
    by rewrite (handle_data_skips _ _ _ Hlast Hfr).
Qed.

Lemma handle_data_visibility_witness :
  handle_data "ignored()" (with_tags [("", false); ("script", false)] init)
  = (Returns tt, with_tags [("", false); ("script", false)] init)
  ∧ handle_data "Visible text." (with_tags [("", false); ("p", false)] init)
    = (Returns tt,
       with_parsed_text "Visible text." (with_tags [("", false); ("p", false)] init))
  ∧ feed ([Starttag "script" []] ++ Data "ignored()" :: [Endtag "script"]) init
    = feed ([Starttag "script" []] ++ [Endtag "script"]) init.
Proof.
  split_and!.
  - apply (proj2 (proj1 handle_data_visibility
                    (with_tags [("", false); ("script", false)] init)
                    "ignored()" ("script", false) eq_refl)).
    intros [Hname _]. apply Hname. compute_done.
  - apply (proj1 (proj1 handle_data_visibility
                    (with_tags [("", false); ("p", false)] init)
                    "Visible text." ("p", false) eq_refl)).
    split; [compute_done|reflexivity].
  - apply (proj2 handle_data_visibility [Starttag "script" []] [Endtag "script"]
             "ignored()" init (with_tags [("", false); ("script", false)] init)
             ("script", false) eq_refl eq_refl).
    left. compute_done.
Defined.

(** C1, as the specification words it, fails: with [comment] in the
    exclusion set in place of [!--], the rule says that text under a top
    frame named [comment] is left out, and the code appends it. *)
Lemma handle_data_spec_set_counterexample : ¬ text_rule SPEC_EXCLUSION_SET.
Proof.
  intros Hrule.
  destruct (Hrule (with_tags [("", false); ("comment", false)] init) "x"
              ("comment", false) eq_refl) as [_ Hskip].
  assert (Hin : ¬ ((("comment", false).1 ∉ SPEC_EXCLUSION_SET)
                   ∧ ("comment", false).2 = false)).
  { intros [Hnotin _]. apply Hnotin. compute_done. }
  specialize (Hskip Hin). vm_compute in Hskip. discriminate Hskip.
Qed.

End TextData.

(** * Properties of the string methods *)

Section StringBasics.

Implicit Types (s t u p : string) (c x : ascii).

Lemma app_cons_str c s t : String c s +:+ t = String c (s +:+ t).
Proof. done. Qed.

Lemma app_nil_l_str s : "" +:+ s = s.
Proof. done. Qed.

Lemma app_nil_str s : s +:+ "" = s.
Proof. induction s as [|c s IH]; [done|]. by rewrite app_cons_str, IH. Qed.

Lemma app_assoc_str s t u : (s +:+ t) +:+ u = s +:+ (t +:+ u).
Proof. induction s as [|c s IH]; [done|]. by rewrite !app_cons_str, IH. Qed.

Lemma length_app_str s t :
  String.length (s +:+ t) = (String.length s + String.length t)%nat.
Proof. induction s as [|c s IH]; [done|]. rewrite app_cons_str. simpl. by rewrite IH. Qed.

Lemma occurs_app x s t : occurs x (s +:+ t) = occurs x s || occurs x t.
Proof.
  induction s as [|c s IH]; [done|]. rewrite app_cons_str. simpl. rewrite IH. by rewrite orb_assoc.
Qed.

Lemma strip_prefix_app p s : Str.strip_prefix p (p +:+ s) = Some s.
Proof.
  induction p as [|c p IH]; [done|]. rewrite app_cons_str. simpl. by rewrite decide_True.
Qed.

Lemma strip_prefix_Some p s r : Str.strip_prefix p s = Some r → s = p +:+ r.
Proof.
  revert s. induction p as [|c p IH]; intros [|d s] H; simplify_eq/=; try done.
  case_decide; [|done]. subst. rewrite app_cons_str. f_equal. by apply IH.
Qed.

(** One step of the scan of [replace]. *)
Lemma replace_go_step a old' new c s :
  Str.replace_go a old' new (String c s) =
  match Str.strip_prefix (String a old') (String c s) with
  | Some rest => new +:+ Str.replace_go a old' new rest
  | None => String c (Str.replace_go a old' new s)
  end.
Proof.
  rewrite Str.replace_go_equation_2.
  destruct (inspect (Str.strip_prefix (String a old') (String c s))) as [[rest|] H];
    cbn [Str.replace_go_unfold_clause_2]; by rewrite H.
Qed.

Lemma replace_go_nil a old' new : Str.replace_go a old' new "" = "".
Proof. by rewrite Str.replace_go_equation_1. Qed.

(** If [q] starts [s +:+ String x t], then it starts [s] or [x] is in it. *)
Lemma strip_prefix_across q s x t r :
  Str.strip_prefix q (s +:+ String x t) = Some r →
  (∃ r', Str.strip_prefix q s = Some r' ∧ r = r' +:+ String x t)
  ∨ occurs x q = true.
Proof.
  revert s. induction q as [|b q IH]; intros s H.
  - left. exists s. simpl in H. by simplify_eq.
  - destruct s as [|c s].
    + right. rewrite app_nil_l_str in H. simpl in H. case_decide; [|done].
      subst. simpl. by rewrite bool_decide_eq_true_2.
    + rewrite app_cons_str in H. simpl in H. simpl. case_decide; [|done].
      destruct (IH _ H) as [Hl|Hr]; [by left|]. right. by rewrite Hr, orb_true_r.
Qed.

(** When the first character of [old] is nowhere else in [old], an
    occurrence of [old] splits the scan in two. *)
Lemma replace_go_occurrence a old' new s t :
  occurs a old' = false →
  Str.replace_go a old' new (s +:+ String a old' +:+ t)
  = Str.replace_go a old' new s +:+ new +:+ Str.replace_go a old' new t.
Proof.
  intros Ha. remember (String.length s) as n eqn:Hn. revert s Hn.
  induction (lt_wf n) as [n _ IH]. intros s Hn.
  destruct s as [|c s].
  - rewrite replace_go_nil, !app_nil_l_str.
    change (String a old' +:+ t) with (String a (old' +:+ t)).
    rewrite replace_go_step.
    change (String a (old' +:+ t)) with (String a old' +:+ t).
    by rewrite strip_prefix_app.
  - change (String c s +:+ String a old' +:+ t)
      with (String c (s +:+ String a old' +:+ t)).
    rewrite !replace_go_step.
    destruct (Str.strip_prefix (String a old') (String c s)) as [rest|] eqn:Hs.
    + pose proof (strip_prefix_Some _ _ _ Hs) as Heq.
      change (String c (s +:+ String a old' +:+ t))
        with (String c s +:+ String a old' +:+ t).
      rewrite Heq, app_assoc_str, strip_prefix_app.
      rewrite app_assoc_str. f_equal. eapply IH; [|done]. subst n.
      rewrite Heq, length_app_str. simpl. lia.
    + destruct (Str.strip_prefix (String a old') (String c (s +:+ String a old' +:+ t)))
        as [rest|] eqn:Hs'.
      * exfalso. simpl in Hs, Hs'. case_decide; [|done].
        destruct (strip_prefix_across _ _ _ _ _ Hs') as [(r' & Hr' & _)|Hocc];
          congruence.
      * change (String c (Str.replace_go a old' new s) +:+ new
                +:+ Str.replace_go a old' new t)
          with (String c (Str.replace_go a old' new s +:+ new
                          +:+ Str.replace_go a old' new t)).
        f_equal. eapply IH; [|done]. subst n. simpl. lia.
Qed.

(** Replacing a one-character [old] by nothing deletes that character. *)
Lemma replace_char_by_nothing x s :
  Str.replace (String x "") "" s = delete_char x s.
Proof.
  unfold Str.replace. induction s as [|c s IH].
  - by rewrite replace_go_nil.
  - rewrite replace_go_step. simpl. destruct (decide (x = c)) as [->|Hne].
    + rewrite decide_True by done. by rewrite app_nil_l_str.
    + rewrite decide_False by congruence. by rewrite IH.
Qed.

Lemma occurs_delete_char x s : occurs x (delete_char x s) = false.
Proof.
  induction s as [|c s IH]; [done|]. simpl. case_decide; [done|].
  simpl. by rewrite bool_decide_eq_false_2.
Qed.

(** [replace] brings in no character that is in neither the text nor the
    replacement. *)
Lemma occurs_replace_go x a old' new s :
  occurs x new = false → occurs x s = false →
  occurs x (Str.replace_go a old' new s) = false.
Proof.
  intros Hnew. remember (String.length s) as n eqn:Hn. revert s Hn.
  induction (lt_wf n) as [n _ IH]. intros [|c s] Hn Hs.
  - by rewrite replace_go_nil.
  - rewrite replace_go_step.
    destruct (Str.strip_prefix (String a old') (String c s)) as [rest|] eqn:Hp.
    + pose proof (strip_prefix_Some _ _ _ Hp) as Heq.
      rewrite occurs_app, Hnew. simpl.
      rewrite Heq, occurs_app in Hs. apply orb_false_iff in Hs as [_ Hrest].
      eapply IH; [|done|done]. subst n. rewrite Heq, length_app_str. simpl. lia.
    + simpl in Hs |- *. apply orb_false_iff in Hs as [Hc Hs]. rewrite Hc. simpl.
      eapply IH; [|done|done]. subst n. simpl. lia.
Qed.

Lemma occurs_replace x old new s :
  old ≠ "" → occurs x new = false → occurs x s = false →
  occurs x (Str.replace old new s) = false.
Proof.
  intros Hold. destruct old as [|a old']; [done|]. apply occurs_replace_go.
Qed.

Lemma occurs_sub_nan_pattern x prev s :
  x ≠ " "%char → occurs x s = false →
  occurs x (sub_nan_pattern prev s) = false.
Proof.
  intros Hx. revert prev. induction s as [|c s IH]; intros prev Hs; [done|].
  simpl in Hs |- *. apply orb_false_iff in Hs as [Hc Hs].
  rewrite (IH _ Hs), orb_false_r.
  destruct (_ && _); [|done]. by rewrite bool_decide_eq_false_2.
Qed.

Lemma occurs_replace_symbols x s :
  occurs x " " = false → occurs x s = false →
  occurs x (replace_symbols s) = false.
Proof.
  intros Hsp. unfold replace_symbols.
  assert (Hall : Forall (λ symbol, symbol ≠ "") symbols_to_replace).
  { unfold symbols_to_replace. repeat constructor; done. }
  revert s. induction Hall as [|symbol symbols Hsym _ IH]; intros s Hs; [done|].
  simpl. apply IH. by apply occurs_replace.
Qed.

Lemma remove_symbols_eq s :
  remove_symbols s = delete_char "'" (Str.replace "&nbsp;" "" s).
Proof. unfold remove_symbols. simpl. apply replace_char_by_nothing. Qed.

Lemma replace_nbsp_occurrence s t :
  Str.replace "&nbsp;" "" (s +:+ "&nbsp;" +:+ t)
  = Str.replace "&nbsp;" "" s +:+ Str.replace "&nbsp;" "" t.
Proof.
  unfold Str.replace. rewrite (replace_go_occurrence "&" "nbsp;" "" s t); [|done].
  by rewrite app_nil_l_str.
Qed.

End StringBasics.

(** * Properties of the character cleanup *)

Section Cleanup.

(** C8. The cleanup first takes out every occurrence of the entity
    [&nbsp;] and then every apostrophe, putting nothing in their place,
    and only then runs the replacement steps. Each occurrence of the
    entity in the text disappears with the text before it and the text
    after it cleaned separately; removing the apostrophes is plain
    deletion of that character; and no apostrophe is left in the result. *)
Theorem remove_extra_characters_deletes :
  (∀ text, remove_extra_characters text
           = sub_nan_pattern None
               (replace_symbols (delete_char "'" (Str.replace "&nbsp;" "" text))))
  ∧ (∀ before after,
       Str.replace "&nbsp;" "" (before +:+ "&nbsp;" +:+ after)
       = Str.replace "&nbsp;" "" before +:+ Str.replace "&nbsp;" "" after)
  ∧ (∀ text, occurs "'" (remove_extra_characters text) = false)
  ∧ remove_extra_characters "kitten&nbsp;9" = "kitten9"
  ∧ remove_extra_characters "world's" = "worlds".
Proof.
  split_and!.
  - intros text. unfold remove_extra_characters. by rewrite remove_symbols_eq.
  - apply replace_nbsp_occurrence.
  - intros text. unfold remove_extra_characters. rewrite remove_symbols_eq.
    apply occurs_sub_nan_pattern; [done|].
    apply occurs_replace_symbols; [done|]. apply occurs_delete_char.
  - by vm_compute.
  - by vm_compute.
Qed.

(** A comma or period right after a digit is kept, whatever follows. *)
Lemma sub_nan_pattern_after_digit d c rest :
  Str.is_digit d = true →
  sub_nan_pattern (Some d) (String c rest)
  = String c (sub_nan_pattern (Some c) rest).
Proof. intros Hd. cbn [sub_nan_pattern is_digit_at]. by rewrite Hd. Qed.

(** A comma or period right before a digit is kept, whatever precedes. *)
Lemma sub_nan_pattern_before_digit prev c d rest :
  Str.is_digit d = true →
  sub_nan_pattern prev (String c (String d rest))
  = String c (sub_nan_pattern (Some c) (String d rest)).
Proof.
  intros Hd. cbn [sub_nan_pattern is_digit_at head_char].
  by rewrite Hd, andb_false_r.
Qed.

(** A comma or period with no digit on either side becomes a space. *)
Lemma sub_nan_pattern_no_digit prev c rest :
  is_digit_at prev = false → is_digit_at (head_char rest) = false →
  c = "."%char ∨ c = ","%char →
  sub_nan_pattern prev (String c rest)
  = String " " (sub_nan_pattern (Some c) rest).
Proof.
  intros Hprev Hnext Hc. cbn [sub_nan_pattern]. rewrite Hprev, Hnext.
  by rewrite (bool_decide_eq_true_2 _ Hc).
Qed.

(** C2. A comma or period with a digit on exactly one side is kept: the
    pattern asks for no digit on either side, where the cleanup's own
    description promises that only the separators inside numbers are
    kept. On the sentence [I have 5, you have 6.] nothing is replaced,
    while [12.34] and [1,000] are kept as they should be. *)
Theorem separator_next_to_one_digit_is_kept :
  remove_extra_characters "I have 5, you have 6." = "I have 5, you have 6."
  ∧ remove_extra_characters "5, you" = "5, you"
  ∧ remove_extra_characters "version .5" = "version .5"
  ∧ remove_extra_characters "12.34" = "12.34"
  ∧ remove_extra_characters "1,000" = "1,000".
Proof. split_and!; by vm_compute. Qed.

End Cleanup.

(** * Properties of the tokenizer *)

Section Tokenizer.

Implicit Types (s t word text : string) (c : ascii).

Local Abbreviation nonempty := (λ piece : string, piece ≠ EmptyString).

Lemma pieces_cons s : ∃ p ps, pieces s = p :: ps.
Proof.
  induction s as [|c s (p & ps & IH)]; simpl; [by eauto|].
  destruct (Str.is_space c); [by eauto|]. rewrite IH. by eauto.
Qed.

(** The scan of [split] with a word in progress, in terms of the pieces. *)
Lemma split_go_pieces s word :
  ∃ p ps, pieces s = p :: ps
          ∧ Str.split_go word s = filter nonempty ((word +:+ p) :: ps).
Proof.
  revert word. induction s as [|c s IH]; intros word.
  - exists "", []. split; [done|]. simpl. rewrite app_nil_str, filter_cons.
    by destruct (decide (word = "")), (decide (word ≠ "")).
  - simpl. destruct (Str.is_space c) eqn:Hc.
    + destruct (IH "") as (p & ps & Hp & Hsplit). exists "", (pieces s).
      split; [done|]. rewrite Hsplit, Hp, app_nil_str, app_nil_l_str.
      rewrite (filter_cons _ word).
      by destruct (decide (word = "")), (decide (word ≠ "")).
    + destruct (IH (word +:+ String c "")) as (p & ps & Hp & Hsplit).
      rewrite Hp. exists (String c p), ps. split; [done|].
      by rewrite Hsplit, app_assoc_str.
Qed.

Lemma split_pieces s : Str.split s = filter nonempty (pieces s).
Proof.
  unfold Str.split. destruct (split_go_pieces s "") as (p & ps & Hp & ->).
  by rewrite Hp.
Qed.

Lemma pieces_no_space s p c :
  p ∈ pieces s → occurs c p = true → Str.is_space c = false.
Proof.
  revert p. induction s as [|d s IH]; intros p Hp Hc.
  - simpl in Hp. apply list_elem_of_singleton in Hp. by subst.
  - simpl in Hp. destruct (Str.is_space d) eqn:Hd.
    + apply elem_of_cons in Hp as [->|Hp]; [done|]. by eapply IH.
    + destruct (pieces_cons s) as (q & qs & Hq). rewrite Hq in Hp, IH.
      apply elem_of_cons in Hp as [->|Hp].
      * simpl in Hc. apply orb_true_iff in Hc as [Hc|Hc].
        -- apply bool_decide_eq_true in Hc. by subst.
        -- eapply IH; [|done]. left.
      * eapply IH; [|done]. by right.
Qed.

Lemma lower_char_idemp c : Str.lower_char (Str.lower_char c) = Str.lower_char c.
Proof. destruct c as [[] [] [] [] [] [] [] []]; by vm_compute. Qed.

Lemma is_space_lower_char c : Str.is_space (Str.lower_char c) = Str.is_space c.
Proof. destruct c as [[] [] [] [] [] [] [] []]; by vm_compute. Qed.

Lemma lower_idemp s : Str.lower (Str.lower s) = Str.lower s.
Proof. induction s as [|c s IH]; [done|]. simpl. by rewrite lower_char_idemp, IH. Qed.

Lemma lower_app s t : Str.lower (s +:+ t) = Str.lower s +:+ Str.lower t.
Proof.
  induction s as [|c s IH]; [done|]. rewrite app_cons_str. simpl.
  by rewrite IH.
Qed.

Lemma occurs_lower c s :
  occurs c (Str.lower s) = true →
  ∃ c0, c = Str.lower_char c0 ∧ occurs c0 s = true.
Proof.
  induction s as [|d s IH]; [done|]. simpl. intros H.
  apply orb_true_iff in H as [H|H].
  - apply bool_decide_eq_true in H. exists d. split; [done|].
    by rewrite bool_decide_eq_true_2.
  - destruct (IH H) as (c0 & -> & Hc0). exists c0. split; [done|].
    by rewrite Hc0, orb_true_r.
Qed.

Lemma join_tokens_cons t (l : list string) :
  join_tokens (t :: l) = t +:+ join_tokens l.
Proof. done. Qed.

Lemma join_tokens_lower (l : list string) :
  join_tokens (Str.lower <$> l) = Str.lower (join_tokens l).
Proof.
  induction l as [|t l IH]; [done|].
  by rewrite fmap_cons, !join_tokens_cons, lower_app, IH.
Qed.

Lemma join_pieces s : join_tokens (filter nonempty (pieces s)) = drop_spaces s.
Proof.
  induction s as [|c s IH]; [done|]. simpl. destruct (Str.is_space c).
  - rewrite filter_cons. by rewrite decide_False by (by intros ?).
  - destruct (pieces_cons s) as (p & ps & Hp). rewrite Hp in IH |- *.
    rewrite filter_cons, decide_True by done.
    rewrite filter_cons in IH. rewrite join_tokens_cons, app_cons_str.
    f_equal. destruct (decide (p ≠ "")) as [Hne|Heq].
    + by rewrite join_tokens_cons in IH.
    + apply dec_stable in Heq. subst p. by rewrite app_nil_l_str.
Qed.

(** C9. Tokenization is the specification's: the text cut at whitespace,
    the empty tokens discarded, every token lowercased, in the order of the
    text. No token is empty or holds a whitespace character, lowercasing a
    token again changes nothing, and the tokens written one after the
    other are the lowercased text without its whitespace, so that nothing
    is dropped, merged away or reordered. *)
Theorem tokenize_spec :
  (∀ text, tokenize text = spec_tokenize text)
  ∧ (∀ text token, token ∈ tokenize text →
       token ≠ ""
       ∧ (∀ c, occurs c token = true → Str.is_space c = false)
       ∧ Str.lower token = token)
  ∧ (∀ text, join_tokens (tokenize text) = Str.lower (drop_spaces text))
  ∧ tokenize "hello heLLO HELLO" = ["hello"; "hello"; "hello"].
Proof.
  split_and!.
  - intros text. unfold tokenize, spec_tokenize. by rewrite split_pieces.
  - intros text token. unfold tokenize. rewrite split_pieces.
    intros (piece & -> & Hpiece)%list_elem_of_fmap.
    apply list_elem_of_filter in Hpiece as [Hne Hpiece]. split_and!.
    + by destruct piece.
    + intros c (c0 & -> & Hc0)%occurs_lower. rewrite is_space_lower_char.
      by eapply pieces_no_space.
    + apply lower_idemp.
  - intros text. unfold tokenize.
    by rewrite split_pieces, join_tokens_lower, join_pieces.
  - by vm_compute.
Qed.

Lemma tokenize_spec_witness :
  "be" ≠ ""
  ∧ (∀ c, occurs c "be" = true → Str.is_space c = false)
  ∧ Str.lower "be" = "be".
Proof.
  apply (proj1 (proj2 tokenize_spec) "To  be" "be"). compute_done.
Defined.

End Tokenizer.

(** * Properties of the frequency ranker *)

Section Ranker.

Implicit Types (words : list string) (w : string) (c : Z)
  (i : string * Z) (l : list (string * Z)).

Global Instance item_le_total : Total item_le.
Proof.
  intros [w1 c1] [w2 c2]. unfold item_le, key_le, sort_key. simpl.
  destruct (Z.lt_trichotomy c1 c2) as [?|[->|?]]; [right; left; lia| |left; left; lia].
  destruct (total String.le w1 w2); [left|right]; by right.
Qed.

Global Instance item_le_trans : Transitive item_le.
Proof.
  intros [w1 c1] [w2 c2] [w3 c3]. unfold item_le, key_le, sort_key. simpl.
  intros [H12|[H12 Hw12]] [H23|[H23 Hw23]]; try (left; lia).
  right. split; [lia|]. by etrans.
Qed.

Lemma slice_to_take {A} (l : list A) (k : Z) : ∃ n, slice_to l k = take n l.
Proof. unfold slice_to. case_decide; eauto. Qed.

Lemma slice_to_nonneg {A} (l : list A) (k : Z) :
  0 ≤ k → slice_to l k = take (Z.to_nat k) l.
Proof. intros Hk. unfold slice_to. case_decide; [lia|done]. Qed.

(** The entries of the frequency map: one per token of the list, with its
    number of occurrences. *)
Lemma elem_of_word_frequency words w c :
  (w, c) ∈ map_to_list (word_frequency words) ↔ w ∈ words ∧ c = count w words.
Proof.
  rewrite elem_of_map_to_list. unfold word_frequency.
  rewrite lookup_set_to_map by (by intros ?? _ _ ?).
  split.
  - intros (y & Hy & Heq). apply elem_of_list_to_set in Hy. by simplify_eq.
  - intros [Hw ->]. exists w. split; [|done]. by apply elem_of_list_to_set.
Qed.

Lemma word_frequency_keys words :
  (map_to_list (word_frequency words)).*1
  ≡ₚ elements (list_to_set words : gset string).
Proof.
  apply NoDup_Permutation.
  - apply NoDup_fst_map_to_list.
  - apply NoDup_elements.
  - intros w. rewrite elem_of_elements, elem_of_list_to_set, list_elem_of_fmap.
    split.
    + intros ([w' c] & -> & Hin). by apply elem_of_word_frequency in Hin as [? _].
    + intros Hw. exists (w, count w words). split; [done|].
      by apply elem_of_word_frequency.
Qed.

Lemma sorted_frequency_Permutation words :
  sorted_frequency words ≡ₚ map_to_list (word_frequency words).
Proof. apply merge_sort_Permutation. Qed.

Lemma elem_of_sorted_frequency words w c :
  (w, c) ∈ sorted_frequency words ↔ w ∈ words ∧ c = count w words.
Proof. by rewrite sorted_frequency_Permutation, elem_of_word_frequency. Qed.

Lemma length_sorted_frequency words :
  Z.of_nat (length (sorted_frequency words)) = distinct_count words.
Proof.
  unfold distinct_count. f_equal.
  rewrite sorted_frequency_Permutation, <- (length_fmap fst).
  by rewrite word_frequency_keys.
Qed.

Lemma NoDup_sorted_frequency_keys words : NoDup (sorted_frequency words).*1.
Proof. rewrite sorted_frequency_Permutation. apply NoDup_fst_map_to_list. Qed.

(** Between entries with different tokens, the sort order is the strict
    ranking order. *)
Lemma item_le_ranked_before i1 i2 :
  item_le i1 i2 → i1.1 ≠ i2.1 → ranked_before i1 i2.
Proof.
  destruct i1 as [w1 c1], i2 as [w2 c2].
  unfold item_le, key_le, sort_key, ranked_before. simpl.
  intros [Hlt|[Heq Hle]] Hne; [left; lia|]. right. split; [lia|].
  unfold String.le, String.leb in Hle.
  destruct (String.compare w1 w2) eqn:Hcmp; [|done|done].
  by apply String.compare_eq_iff in Hcmp.
Qed.

Lemma ranked_before_asym i1 i2 : ranked_before i1 i2 → ranked_before i2 i1 → False.
Proof.
  destruct i1 as [w1 c1], i2 as [w2 c2]. unfold ranked_before. simpl.
  intros [?|[? H12]] [?|[? H21]]; try lia.
  rewrite String.compare_antisym, H21 in H12. done.
Qed.

Lemma StronglySorted_strict l :
  StronglySorted item_le l → NoDup l.*1 → StronglySorted ranked_before l.
Proof.
  induction 1 as [|i l Hl IH Hi]; intros Hnodup; [constructor|].
  rewrite fmap_cons in Hnodup. apply NoDup_cons in Hnodup as [Hnotin Hnodup].
  constructor; [by apply IH|].
  rewrite Forall_forall in Hi |- *. intros i' Hi'.
  apply item_le_ranked_before; [by apply Hi|].
  intros Heq. apply Hnotin. rewrite Heq. by apply list_elem_of_fmap_2.
Qed.

Lemma StronglySorted_take {A} (R : relation A) (l : list A) n :
  StronglySorted R l → StronglySorted R (take n l).
Proof.
  intros Hl. rewrite <- (take_drop n l) in Hl.
  by apply StronglySorted_app in Hl as (_ & Htake & _).
Qed.

Lemma sorted_frequency_ranked words :
  StronglySorted ranked_before (sorted_frequency words).
Proof.
  apply StronglySorted_strict; [|apply NoDup_sorted_frequency_keys].
  apply StronglySorted_merge_sort; apply _.
Qed.

(** The full ranking is the only list that is in ranking order and holds
    exactly the entries of the frequency map. *)
Lemma sorted_frequency_unique words l :
  StronglySorted ranked_before l →
  (∀ i, i ∈ l ↔ i ∈ sorted_frequency words) →
  l = sorted_frequency words.
Proof.
  intros Hl Hiff.
  apply (StronglySorted_unique_strong ranked_before); [|done|apply sorted_frequency_ranked|].
  - intros i1 i2 _ _ H12 H21. by destruct (ranked_before_asym _ _ H12 H21).
  - apply NoDup_Permutation; [| |done].
    + clear Hiff. induction Hl as [|i l Hl IH Hi]; constructor; [|done].
      intros Hin. rewrite Forall_forall in Hi.
      by destruct (ranked_before_asym _ _ (Hi _ Hin) (Hi _ Hin)).
    + eapply NoDup_fmap_1. apply NoDup_sorted_frequency_keys.
Qed.

(** C3. The ranked result is in ranking order: counts descending, and
    tokens ascending by code point among equal counts. Its entries pair
    distinct tokens of the list with their numbers of occurrences, and
    when the requested maximum is at least the number of distinct tokens
    it is the one list in ranking order that holds such an entry for every
    token. *)
Theorem find_most_frequent_words_ranked words (max_ : Z) :
  StronglySorted ranked_before (find_most_frequent_words words max_)
  ∧ (∀ w c, (w, c) ∈ find_most_frequent_words words max_ →
            w ∈ words ∧ c = count w words)
  ∧ (distinct_count words ≤ max_ →
     (∀ w, w ∈ words → (w, count w words) ∈ find_most_frequent_words words max_)
     ∧ ∀ l, StronglySorted ranked_before l →
            (∀ w c, (w, c) ∈ l ↔ w ∈ words ∧ c = count w words) →
            l = find_most_frequent_words words max_)
  ∧ find_most_frequent_words ["to"; "be"; "or"; "not"; "to"; "be"] 10
    = [("be", 2); ("to", 2); ("not", 1); ("or", 1)].
Proof.
  unfold find_most_frequent_words.
  destruct (slice_to_take (sorted_frequency words)
              (Z.min max_ (Z.of_nat (length (sorted_frequency words)))))
    as [n Hn].
  split_and!.
  - rewrite Hn. apply StronglySorted_take, sorted_frequency_ranked.
  - intros w c Hin. rewrite Hn in Hin. apply subseteq_take in Hin.
    by apply elem_of_sorted_frequency.
  - intros Hmax.
    assert (Hall : slice_to (sorted_frequency words)
                     (Z.min max_ (Z.of_nat (length (sorted_frequency words))))
                   = sorted_frequency words).
    { rewrite length_sorted_frequency, Z.min_r by done.
      rewrite slice_to_nonneg by (unfold distinct_count; lia).
      apply take_ge. rewrite <- length_sorted_frequency. lia. }
    rewrite Hall. split.
    + intros w Hw. by apply elem_of_sorted_frequency.
    + intros l Hl Hiff. apply sorted_frequency_unique; [done|].
      intros [w c]. by rewrite Hiff, elem_of_sorted_frequency.
  - by vm_compute.
Qed.

Lemma find_most_frequent_words_ranked_witness :
  ("be", 2) ∈ find_most_frequent_words ["to"; "be"; "or"; "not"; "to"; "be"] 10.
Proof.
  pose proof (find_most_frequent_words_ranked
                ["to"; "be"; "or"; "not"; "to"; "be"] 10) as (_ & _ & Hall & _).
  assert (Hmax : distinct_count ["to"; "be"; "or"; "not"; "to"; "be"] ≤ 10)
    by (by vm_compute).
  apply (proj1 (Hall Hmax) "be"). compute_done.
Defined.

(** C7. For a requested maximum that is not negative, the result is the
    first [min(max_, number of distinct tokens)] entries of the full
    ranking, and has that many entries. *)
Theorem find_most_frequent_words_truncates words (max_ : Z) :
  0 ≤ max_ →
  find_most_frequent_words words max_
  = take (Z.to_nat (Z.min max_ (distinct_count words))) (sorted_frequency words)
  ∧ Z.of_nat (length (find_most_frequent_words words max_))
    = Z.min max_ (distinct_count words).
Proof.
  intros Hmax. unfold find_most_frequent_words.
  rewrite length_sorted_frequency.
  assert (0 ≤ distinct_count words) by (unfold distinct_count; lia).
  rewrite slice_to_nonneg by lia. split; [done|].
  rewrite length_take_le; [lia|].
  pose proof (length_sorted_frequency words). lia.
Qed.

Lemma find_most_frequent_words_truncates_witness :
  find_most_frequent_words ["to"; "be"; "or"; "not"; "to"; "be"] 1 = [("be", 2)].
Proof.
  assert (Hmax : 0 ≤ 1) by lia.
  rewrite (proj1 (find_most_frequent_words_truncates
                    ["to"; "be"; "or"; "not"; "to"; "be"] 1 Hmax)).
  by vm_compute.
Defined.

(** A requested maximum of zero gives the empty result. *)
Lemma find_most_frequent_words_zero words : find_most_frequent_words words 0 = [].
Proof.
  unfold find_most_frequent_words. rewrite Z.min_l by lia.
  by rewrite slice_to_nonneg.
Qed.

(** C4. A negative maximum does not give the empty result: [-1] is passed
    on to the slice, where it means all entries but the last. Three
    distinct tokens and a maximum of [-1] give two entries, against the
    description of [max_] as the maximum number of entries returned. *)
Theorem negative_max_returns_entries :
  find_most_frequent_words ["a"; "b"; "c"] (-1) = [("a", 1); ("b", 1)]
  ∧ find_most_frequent_words ["to"; "be"; "or"; "not"; "to"; "be"] (-1)
    = [("be", 2); ("to", 2); ("not", 1)]
  ∧ find_most_frequent_words ["a"; "b"; "c"] 0 = [].
Proof. split_and!; by vm_compute. Qed.

End Ranker.

(** * Further properties of the parse *)

Section Parse.

Implicit Types (self : HtmlText) (fr : frame) (events : list event)
  (tag : string) (attrs : list (string * option string)).

Lemma feed_cons e events self :
  feed (e :: events) self =
  match dispatch e self with
  | (Returns _, self') => feed events self'
  | (Raises x, self') => (Raises x, self')
  end.
Proof. done. Qed.

Lemma handle_endtag_top tag attrs self :
  handle_endtag tag (handle_starttag tag attrs self).2 = (Returns tt, self).
Proof.
  unfold handle_starttag. cbn [snd].
  rewrite handle_endtag_snoc. cbn [fst]. rewrite decide_False by (by intros ?).
  by rewrite with_tags_id.
Qed.

Lemma handle_startendtag_id tag attrs self :
  handle_startendtag tag attrs self = (Returns tt, self).
Proof.
  unfold handle_startendtag, mbind, M_bind.
  change (handle_starttag tag attrs self)
    with (Returns tt, (handle_starttag tag attrs self).2).
  apply handle_endtag_top.
Qed.

(** X1. Opening a tag and closing it at once gives back the object as it
    was: stack, text and document. A self-closing tag therefore leaves no
    trace, whatever its name and attributes. *)
Theorem handle_startendtag_restores tag attrs self :
  handle_startendtag tag attrs self = (Returns tt, self)
  ∧ handle_endtag tag (handle_starttag tag attrs self).2 = (Returns tt, self).
Proof. split; [apply handle_startendtag_id|apply handle_endtag_top]. Qed.

(** A text-data event on a stack that is not empty returns and touches
    only the text. *)
Lemma handle_data_returns (raw_text : string) self :
  _tags self ≠ [] →
  ∃ text, handle_data raw_text self = (Returns tt, with_parsed_text text self).
Proof.
  intros Hne. unfold handle_data.
  destruct (last (_tags self)) as [[name hidden]|] eqn:Hlast.
  - destruct (_ && _); [by eauto|]. exists (parsed_text self). by destruct self.
  - by apply last_None in Hlast.
Qed.

Lemma balanced_feed events :
  balanced events →
  ∀ self, _tags self ≠ [] →
  ∃ text, feed events self = (Returns tt, with_parsed_text text self).
Proof.
  induction 1 as [|raw_text events _ IH|data events _ IH|tag attrs events _ IH
                 |tag attrs inner events _ IHinner _ IH]; intros self Hne.
  - exists (parsed_text self). by destruct self.
  - rewrite feed_cons. cbn [dispatch].
    destruct (handle_data_returns raw_text self Hne) as [text ->].
    destruct (IH (with_parsed_text text self) Hne) as [text' ->]. by exists text'.
  - rewrite feed_cons. cbn [dispatch]. by apply IH.
  - rewrite feed_cons. cbn [dispatch].
    rewrite handle_startendtag_id. by apply IH.
  - rewrite feed_cons. cbn [dispatch]. unfold handle_starttag.
    set (fr := (tag, if decide ("hidden" ∈ attrs.*1) then true else false)).
    rewrite feed_app.
    destruct (IHinner (with_tags (_tags self ++ [fr]) self)) as [text ->].
    { simpl. by intros [_ ?]%app_eq_nil. }
    rewrite feed_cons. cbn [dispatch].
    change (with_parsed_text text (with_tags (_tags self ++ [fr]) self))
      with (with_tags (_tags self ++ [fr]) (with_parsed_text text self)).
    rewrite handle_endtag_snoc. subst fr. cbn [fst].
    rewrite decide_False by (by intros ?).
    change (with_tags (_tags self) (with_parsed_text text self))
      with (with_tags (_tags (with_parsed_text text self)) (with_parsed_text text self)).
    rewrite with_tags_id.
    destruct (IH (with_parsed_text text self) Hne) as [text' ->]. by exists text'.
Qed.

(** X2. On a properly nested event sequence, started on a stack that is
    not empty, the parse returns normally and leaves the stack and the
    document exactly as they were; only the text may have changed. *)
Theorem balanced_feed_restores_stack events self :
  balanced events → _tags self ≠ [] →
  ∃ text, feed events self = (Returns tt, with_parsed_text text self)
          ∧ _tags (feed events self).2 = _tags self
          ∧ document_content (feed events self).2 = document_content self.
Proof.
  intros Hbal Hne. destruct (balanced_feed events Hbal self Hne) as [text Hfeed].
  exists text. by rewrite Hfeed.
Qed.

Lemma balanced_feed_restores_stack_witness :
  ∃ text,
    feed [Starttag "p" []; Data "a"; Starttag "b" [("hidden", None)]; Data "x";
          Endtag "b"; Startendtag "br" []; Endtag "p"] init
    = (Returns tt, with_parsed_text text init)
    ∧ _tags (feed [Starttag "p" []; Data "a"; Starttag "b" [("hidden", None)];
                   Data "x"; Endtag "b"; Startendtag "br" []; Endtag "p"] init).2
      = _tags init
    ∧ document_content
        (feed [Starttag "p" []; Data "a"; Starttag "b" [("hidden", None)];
               Data "x"; Endtag "b"; Startendtag "br" []; Endtag "p"] init).2
      = document_content init.
Proof.
  apply (balanced_feed_restores_stack
           [Starttag "p" []; Data "a"; Starttag "b" [("hidden", None)]; Data "x";
            Endtag "b"; Startendtag "br" []; Endtag "p"] init).
  - apply (balanced_element "p" []
             [Data "a"; Starttag "b" [("hidden", None)]; Data "x"; Endtag "b";
              Startendtag "br" []] []); [|constructor].
    apply balanced_data.
    apply (balanced_element "b" [("hidden", None)] [Data "x"] [Startendtag "br" []]).
    + repeat constructor.
    + repeat constructor.
  - done.
Defined.

(** X3. Visibility is decided by the innermost open tag alone: text right
    inside a tag that is neither excluded nor hidden is appended whatever
    lies below it on the stack, so the text of a visible child of a hidden
    or excluded element is extracted. *)
Theorem visibility_is_not_inherited tag attrs (raw_text : string) self :
  tag ∉ TAGS_TO_EXCLUDE → "hidden" ∉ attrs.*1 →
  feed [Starttag tag attrs; Data raw_text] self
  = (Returns tt,
     with_parsed_text (parsed_text self +:+ raw_text)
       (with_tags (_tags self ++ [(tag, false)]) self)).
Proof.
  intros Htag Hattrs. rewrite feed_cons. cbn [dispatch].
  unfold handle_starttag. rewrite decide_False by done.
  rewrite feed_cons. cbn [dispatch].
  rewrite (handle_data_appends _ (tag, false)); [done| |done..].
  simpl. by rewrite last_snoc.
Qed.

Lemma visibility_is_not_inherited_witness :
  feed [Starttag "p" []; Data "secret"]
    (with_tags [("", false); ("div", true)] init)
  = (Returns tt,
     with_parsed_text "secret"
       (with_tags [("", false); ("div", true); ("p", false)] init)).
Proof.
  apply (visibility_is_not_inherited "p" [] "secret"
           (with_tags [("", false); ("div", true)] init)); compute_done.
Defined.

(** The end-tag handler changes nothing but the stack. *)
Lemma handle_endtag_tags_only tag self :
  ∃ o ts, handle_endtag tag self = (o, with_tags ts self).
Proof.
  destruct (decide (tag ∈ (_tags self).*1)) as [Hin|Hnotin].
  - destruct (topmost_frame _ _ Hin) as (below & fr & above & Hts & Hfr & Habove).
    exists (Returns tt), below. rewrite <- (with_tags_id self) at 1. rewrite Hts.
    by apply handle_endtag_found.
  - exists (Raises IndexError), []. rewrite <- (with_tags_id self) at 1.
    by apply handle_endtag_drains.
Qed.

(** What one handler call does to the text and to the document. *)
Lemma dispatch_effect e self :
  document_content (dispatch e self).2 = document_content self
  ∧ (parsed_text (dispatch e self).2 = parsed_text self
     ∨ ∃ raw_text, e = Data raw_text
         ∧ parsed_text (dispatch e self).2 = parsed_text self +:+ raw_text).
Proof.
  destruct e as [tag attrs|tag|tag attrs|raw_text|data]; cbn [dispatch].
  - split; [done|by left].
  - destruct (handle_endtag_tags_only tag self) as (o & ts & ->). split; [done|by left].
  - rewrite handle_startendtag_id. split; [done|by left].
  - unfold handle_data. destruct (last (_tags self)) as [[name hidden]|].
    + destruct (_ && _); (split; [done|]); [right; by eauto|by left].
    + split; [done|by left].
  - split; [done|by left].
Qed.

Lemma feed_effect events self :
  ∃ kept, kept `sublist_of` data_texts events
    ∧ parsed_text (feed events self).2 = parsed_text self +:+ join_tokens kept
    ∧ document_content (feed events self).2 = document_content self.
Proof.
  revert self. induction events as [|e events IH]; intros self.
  { exists []. split_and!; [done| |done]. simpl. by rewrite app_nil_str. }
  rewrite feed_cons.
  destruct (dispatch_effect e self) as [Hdoc Htext].
  destruct (dispatch e self) as [[[]|x] self'] eqn:He; simpl in Hdoc, Htext.
  - destruct (IH self') as (kept & Hsub & Hkept & Hdoc').
    destruct Htext as [Htext|(raw_text & -> & Htext)].
    + exists kept. split_and!; [|congruence..].
      destruct e; simpl; try done. by apply sublist_cons.
    + exists (raw_text :: kept). split_and!; [| |congruence].
      * simpl. by apply sublist_skip.
      * rewrite Hkept, Htext, join_tokens_cons. by rewrite app_assoc_str.
  - exists []. split_and!; [apply sublist_nil_l| |done].
    simpl. rewrite app_nil_str.
    destruct Htext as [Htext|(raw_text & -> & Htext)]; [done|].
    cbn [dispatch] in He. unfold handle_data in He.
    destruct (last (_tags self)) as [[name hidden]|]; [|by simplify_eq].
    by destruct (_ && _).
Qed.

(** X4. Whatever the events, and whether the parse returns or raises, the
    text it leaves is the text it found followed by texts of text-data
    events, taken in document order without repetition; nothing else is
    ever written to the text, nothing already there is removed, and the
    document is not changed. *)
Theorem feed_appends_data_texts events self :
  ∃ kept, kept `sublist_of` data_texts events
    ∧ parsed_text (feed events self).2 = parsed_text self +:+ join_tokens kept
    ∧ document_content (feed events self).2 = document_content self.
Proof. apply feed_effect. Qed.




(** X6. An end tag whose name is nowhere in the stack ends the parse: the
    events after it are never handled, the text gathered before it stays,
    and the stack is left empty. *)
Theorem unmatched_endtag_stops_feed events1 events2 tag self self1 :
  feed events1 self = (Returns tt, self1) →
  tag ∉ (_tags self1).*1 →
  feed (events1 ++ Endtag tag :: events2) self
  = (Raises IndexError, with_tags [] self1).
Proof.
  intros Hfeed Htag. rewrite feed_app, Hfeed, feed_cons. cbn [dispatch].
  rewrite <- (with_tags_id self1) at 1.
  by rewrite (handle_endtag_drains _ _ _ Htag).
Qed.

Lemma unmatched_endtag_stops_feed_witness :
  feed ([Starttag "p" []; Data "kept"] ++ Endtag "div" :: [Data "lost"]) init
  = (Raises IndexError,
     with_tags [] (with_parsed_text "kept" (with_tags [("", false); ("p", false)] init))).
Proof.
  apply (unmatched_endtag_stops_feed [Starttag "p" []; Data "kept"] [Data "lost"]
           "div" init
           (with_parsed_text "kept" (with_tags [("", false); ("p", false)] init))).
  - reflexivity.
  - compute_done.
Defined.

End Parse.

(** * Further properties of the character cleanup *)

Section CleanupMore.

Implicit Types (s t text : string) (x c : ascii).

Local Abbreviation replace_each new :=
  (foldl (λ text symbol, Str.replace symbol new text)).

Lemma replace_go_absent a old' new s :
  occurs a s = false → Str.replace_go a old' new s = s.
Proof.
  induction s as [|c s IH]; intros Hs.
  - by rewrite replace_go_nil.
  - simpl in Hs. apply orb_false_iff in Hs as [Hc Hs].
    apply bool_decide_eq_false in Hc.
    rewrite replace_go_step. simpl. rewrite decide_False by congruence.
    by rewrite IH.
Qed.

Lemma replace_char_by_space x s :
  x ≠ " "%char → occurs x (Str.replace (String x "") " " s) = false.
Proof.
  intros Hx. unfold Str.replace. induction s as [|c s IH].
  - by rewrite replace_go_nil.
  - rewrite replace_go_step. simpl. destruct (decide (x = c)) as [->|Hne].
    + rewrite app_cons_str, app_nil_l_str. simpl.
      rewrite IH, orb_false_r. apply bool_decide_eq_false. congruence.
    + simpl. rewrite IH, orb_false_r. apply bool_decide_eq_false. congruence.
Qed.

Lemma occurs_replace_each x new (symbols : list string) s :
  Forall (λ symbol, symbol ≠ "") symbols →
  occurs x new = false → occurs x s = false →
  occurs x (replace_each new s symbols) = false.
Proof.
  intros Hall Hnew. revert s.
  induction Hall as [|symbol symbols Hsym _ IH]; intros s Hs; [done|].
  simpl. apply IH. by apply occurs_replace.
Qed.

Lemma replace_each_removes x (symbols : list string) s :
  Forall (λ symbol, symbol ≠ "") symbols →
  String x "" ∈ symbols → x ≠ " "%char →
  occurs x (replace_each " " s symbols) = false.
Proof.
  intros Hall Hin Hx. revert s.
  induction Hall as [|symbol symbols Hsym Hall IH]; intros s.
  { by apply elem_of_nil in Hin. }
  simpl. apply elem_of_cons in Hin as [<-|Hin].
  - apply occurs_replace_each; [done| |by apply replace_char_by_space].
    simpl. rewrite orb_false_r. apply bool_decide_eq_false. congruence.
  - by apply IH.
Qed.

Lemma symbols_to_replace_nonempty :
  Forall (λ symbol, symbol ≠ "") symbols_to_replace.
Proof. unfold symbols_to_replace. repeat constructor; done. Qed.

Lemma cleaned_symbol_absent text x :
  x ∈ cleaned_symbols → occurs x (remove_extra_characters text) = false.
Proof.
  intros Hx. unfold remove_extra_characters.
  assert (Hsp : x ≠ " "%char).
  { assert (Hnot : " "%char ∉ cleaned_symbols) by compute_done. by intros ->. }
  apply occurs_sub_nan_pattern; [done|].
  apply replace_each_removes; [apply symbols_to_replace_nonempty| |done].
  unfold cleaned_symbols in Hx. unfold symbols_to_replace.
  repeat (apply elem_of_cons in Hx as [->|Hx]; [compute_done|]).
  by apply elem_of_nil in Hx.
Qed.

(** X7. None of the characters the cleanup handles one by one is left in
    its result: question and exclamation marks, colon, semicolon, hyphen,
    brackets, braces, parentheses, both quotation marks, newline and tab
    never occur in cleaned text. *)
Theorem remove_extra_characters_cleans text x :
  x ∈ cleaned_symbols → occurs x (remove_extra_characters text) = false.
Proof. apply cleaned_symbol_absent. Qed.

Lemma remove_extra_characters_cleans_witness :
  occurs "?" (remove_extra_characters "Really? (yes) - no!") = false.
Proof.
  apply (remove_extra_characters_cleans "Really? (yes) - no!" "?"). compute_done.
Defined.

Lemma digits_app s t : digits (s +:+ t) = digits s +:+ digits t.
Proof.
  induction s as [|c s IH]; [done|]. rewrite app_cons_str. simpl.
  destruct (Str.is_digit c); [|done]. by rewrite app_cons_str, IH.
Qed.

Lemma digits_replace_go a old' new s :
  digits (String a old') = "" → digits new = "" →
  digits (Str.replace_go a old' new s) = digits s.
Proof.
  intros Hold Hnew. remember (String.length s) as n eqn:Hn. revert s Hn.
  induction (lt_wf n) as [n _ IH]. intros [|c s] Hn.
  - by rewrite replace_go_nil.
  - rewrite replace_go_step.
    destruct (Str.strip_prefix (String a old') (String c s)) as [rest|] eqn:Hp.
    + pose proof (strip_prefix_Some _ _ _ Hp) as Heq.
      rewrite digits_app, Hnew, app_nil_l_str, Heq, digits_app, Hold, app_nil_l_str.
      eapply IH; [|done]. subst n. rewrite Heq, length_app_str. simpl. lia.
    + simpl. destruct (Str.is_digit c); [f_equal|]; (eapply IH; [|done]);
        subst n; simpl; lia.
Qed.

Lemma digits_replace_each new (symbols : list string) s :
  Forall (λ symbol, symbol ≠ "" ∧ digits symbol = "") symbols →
  digits new = "" →
  digits (replace_each new s symbols) = digits s.
Proof.
  intros Hall Hnew. revert s.
  induction Hall as [|symbol symbols [Hne Hsym] _ IH]; intros s; [done|].
  simpl. rewrite IH. destruct symbol as [|a old']; [done|].
  by apply digits_replace_go.
Qed.

Lemma digits_sub_nan_pattern prev s : digits (sub_nan_pattern prev s) = digits s.
Proof.
  revert prev. induction s as [|c s IH]; intros prev; [done|].
  cbn [sub_nan_pattern digits]. rewrite IH.
  destruct (negb (is_digit_at prev)); [|done]. cbn [andb].
  destruct (bool_decide_reflect (c = "."%char ∨ c = ","%char)) as [Hc|Hc]; [|done].
  cbn [andb]. destruct (negb _); [|done]. by destruct Hc as [-> | ->].
Qed.

(** X8. The cleanup neither drops, nor adds, nor reorders digits: the
    digits of the cleaned text are the digits of the text. *)
Theorem remove_extra_characters_keeps_digits text :
  digits (remove_extra_characters text) = digits text.
Proof.
  unfold remove_extra_characters, replace_symbols, remove_symbols.
  rewrite digits_sub_nan_pattern.
  rewrite digits_replace_each; [| |done].
  - apply digits_replace_each; [|done].
    unfold symbols_to_remove. repeat constructor; done.
  - unfold symbols_to_replace. repeat constructor; done.
Qed.

Lemma replace_each_absent new (symbols : list string) s :
  Forall (λ symbol, ∃ a old', symbol = String a old' ∧ occurs a s = false) symbols →
  replace_each new s symbols = s.
Proof.
  induction 1 as [|symbol symbols (a & old' & -> & Ha) _ IH]; [done|].
  simpl. change (Str.replace (String a old') new s)
    with (Str.replace_go a old' new s).
  by rewrite replace_go_absent.
Qed.

Lemma sub_nan_pattern_absent prev s :
  occurs "." s = false → occurs "," s = false → sub_nan_pattern prev s = s.
Proof.
  revert prev. induction s as [|c s IH]; intros prev Hp Hc; [done|].
  simpl in Hp, Hc. apply orb_false_iff in Hp as [Hp Hp'].
  apply orb_false_iff in Hc as [Hc Hc'].
  apply bool_decide_eq_false in Hp, Hc.
  cbn [sub_nan_pattern]. rewrite (IH _ Hp' Hc').
  rewrite (bool_decide_eq_false_2 (c = "."%char ∨ c = ","%char)) by (by intros [?|?]).
  by rewrite andb_false_r.
Qed.

(** X9. Text that holds none of the characters the cleanup acts on (the
    ampersand, period, comma and the cleaned symbols) comes back
    unchanged: letters, digits, spaces and other signs are never
    touched. *)
Theorem remove_extra_characters_plain text :
  Forall (λ x, occurs x text = false) special_chars →
  remove_extra_characters text = text.
Proof.
  intros Hall. rewrite Forall_forall in Hall.
  assert (Hno : ∀ x, x ∈ special_chars → occurs x text = false) by done.
  unfold remove_extra_characters, replace_symbols, remove_symbols.
  rewrite (replace_each_absent "" symbols_to_remove).
  2:{ unfold symbols_to_remove.
      repeat (constructor; [eexists _, _; split; [reflexivity|apply Hno; compute_done]|]).
      constructor. }
  rewrite (replace_each_absent " " symbols_to_replace).
  2:{ unfold symbols_to_replace.
      repeat (constructor; [eexists _, _; split; [reflexivity|apply Hno; compute_done]|]).
      constructor. }
  apply sub_nan_pattern_absent; apply Hno; compute_done.
Qed.

Lemma remove_extra_characters_plain_witness :
  remove_extra_characters "Buy 1000 items for 12 $" = "Buy 1000 items for 12 $".
Proof.
  apply (remove_extra_characters_plain "Buy 1000 items for 12 $").
  unfold special_chars, cleaned_symbols. repeat constructor.
Defined.

End CleanupMore.

(** * Further properties of the tokenizer *)

Section TokenizerMore.

Implicit Types (s t text : string) (c : ascii).

Local Abbreviation nonempty := (λ piece : string, piece ≠ EmptyString).

Lemma drop_spaces_empty s :
  drop_spaces s = "" ↔ ∀ c, occurs c s = true → Str.is_space c = true.
Proof.
  induction s as [|d s IH]; simpl.
  - split; [by intros _ c|done].
  - destruct (Str.is_space d) eqn:Hd.
    + rewrite IH. split.
      * intros Hall c [Hc|Hc]%orb_true_iff; [|by apply Hall].
        apply bool_decide_eq_true in Hc. by subst.
      * intros Hall c Hc. apply Hall. by rewrite Hc, orb_true_r.
    + split; [done|]. intros Hall.
      specialize (Hall d). rewrite bool_decide_eq_true_2 in Hall by done.
      simpl in Hall. rewrite Hd in Hall. by specialize (Hall eq_refl).
Qed.

Lemma join_tokens_nonempty (l : list string) :
  Forall nonempty l → join_tokens l = "" → l = [].
Proof.
  destruct 1 as [|t l Ht _]; [done|]. rewrite join_tokens_cons.
  by destruct t.
Qed.

Lemma tokenize_nil_iff text : tokenize text = [] ↔ drop_spaces text = "".
Proof.
  unfold tokenize. rewrite split_pieces, <- join_pieces. split.
  - by intros ->%fmap_nil_inv.
  - intros Hjoin. apply join_tokens_nonempty in Hjoin as ->; [done|].
    apply Forall_forall. by intros piece [? _]%list_elem_of_filter.
Qed.

(** X10. A text yields no token exactly when every character of it is
    whitespace; in particular the empty text yields none. *)
Theorem tokenize_nothing text :
  tokenize text = [] ↔ ∀ c, occurs c text = true → Str.is_space c = true.
Proof. by rewrite tokenize_nil_iff, drop_spaces_empty. Qed.

Lemma pieces_app_space s c t :
  Str.is_space c = true →
  pieces (s +:+ String c t) = pieces s ++ pieces t.
Proof.
  intros Hc. induction s as [|d s IH].
  - rewrite app_nil_l_str. simpl. by rewrite Hc.
  - rewrite app_cons_str. simpl. rewrite IH. destruct (Str.is_space d); [done|].
    destruct (pieces_cons s) as (p & ps & ->). done.
Qed.

(** X11. Tokenizing two texts joined by a whitespace character gives the
    tokens of the first followed by the tokens of the second: no token
    spans the join, and none is lost or changed by it. *)
Theorem tokenize_app_space text1 c text2 :
  Str.is_space c = true →
  tokenize (text1 +:+ String c text2) = tokenize text1 ++ tokenize text2.
Proof.
  intros Hc. unfold tokenize. rewrite !split_pieces.
  by rewrite pieces_app_space, filter_app, fmap_app.
Qed.

Lemma tokenize_app_space_witness :
  tokenize ("To be" +:+ String "010" "or NOT") = tokenize "To be" ++ tokenize "or NOT".
Proof. apply (tokenize_app_space "To be" "010" "or NOT"). reflexivity. Defined.

Lemma pieces_occurs s p c :
  p ∈ pieces s → occurs c p = true → occurs c s = true.
Proof.
  revert p. induction s as [|d s IH]; intros p Hp Hc.
  - simpl in Hp. apply list_elem_of_singleton in Hp. by subst.
  - simpl in Hp |- *. destruct (Str.is_space d).
    + apply elem_of_cons in Hp as [->|Hp]; [done|].
      by rewrite (IH _ Hp Hc), orb_true_r.
    + destruct (pieces_cons s) as (q & qs & Hq). rewrite Hq in Hp, IH.
      apply elem_of_cons in Hp as [->|Hp].
      * simpl in Hc. apply orb_true_iff in Hc as [->|Hc]; [done|].
        rewrite (IH q); [by rewrite orb_true_r|left|done].
      * rewrite (IH p); [by rewrite orb_true_r|by right|done].
Qed.

(** Every character of a token is the lowercase of a character of the
    text. *)
Lemma tokenize_occurs text token c :
  token ∈ tokenize text → occurs c token = true →
  ∃ c0, c = Str.lower_char c0 ∧ occurs c0 text = true.
Proof.
  unfold tokenize. rewrite split_pieces.
  intros (piece & -> & Hpiece)%list_elem_of_fmap Hc.
  apply list_elem_of_filter in Hpiece as [_ Hpiece].
  apply occurs_lower in Hc as (c0 & -> & Hc0). exists c0. split; [done|].
  by eapply pieces_occurs.
Qed.

End TokenizerMore.

(** * Further properties of the frequency ranker *)

Section RankerMore.

Implicit Types (words : list string) (w : string) (c : Z)
  (l : list (string * Z)).

Lemma count_Permutation w words words' :
  words ≡ₚ words' → count w words = count w words'.
Proof. intros Hperm. unfold count. by rewrite Hperm. Qed.

Lemma sorted_frequency_Permutation_words words words' :
  words ≡ₚ words' → sorted_frequency words' = sorted_frequency words.
Proof.
  intros Hperm. apply sorted_frequency_unique; [apply sorted_frequency_ranked|].
  intros [w c]. rewrite !elem_of_sorted_frequency.
  rewrite (count_Permutation w words words' Hperm).
  split; intros [Hw ->]; (split; [|done]); [by rewrite Hperm|by rewrite <- Hperm].
Qed.

(** X12. The ranked result depends on how often each token occurs, not on
    where: any reordering of the token list gives the same result. *)
Theorem find_most_frequent_words_Permutation words words' (max_ : Z) :
  words ≡ₚ words' →
  find_most_frequent_words words' max_ = find_most_frequent_words words max_.
Proof.
  intros Hperm. unfold find_most_frequent_words.
  by rewrite (sorted_frequency_Permutation_words words words').
Qed.

Lemma find_most_frequent_words_Permutation_witness :
  find_most_frequent_words ["be"; "to"; "or"; "to"; "be"; "not"] 3
  = find_most_frequent_words ["to"; "be"; "or"; "not"; "to"; "be"] 3.
Proof.
  apply (find_most_frequent_words_Permutation
           ["to"; "be"; "or"; "not"; "to"; "be"]
           ["be"; "to"; "or"; "to"; "be"; "not"] 3).
  etrans; [apply perm_swap|]. do 3 apply perm_skip.
  etrans; [apply perm_swap|]. apply perm_skip. apply perm_swap.
Defined.

Lemma count_cons w w' words :
  count w (w' :: words) = (if decide (w = w') then 1 else 0) + count w words.
Proof.
  unfold count. rewrite filter_cons. case_decide; simpl; lia.
Qed.

Lemma count_bounds w words :
  w ∈ words → 1 ≤ count w words ≤ Z.of_nat (length words).
Proof.
  intros Hw. unfold count. split.
  - assert (Hin : w ∈ filter (w =.) words) by (by apply list_elem_of_filter).
    destruct (filter (w =.) words); [by apply elem_of_nil in Hin|simpl; lia].
  - pose proof (length_filter (w =.) words). lia.
Qed.

(** The counts of the keys of a list without repetition that covers the
    tokens add up to the number of tokens. *)
Lemma sum_counts (keys : list string) words :
  NoDup keys → (∀ w, w ∈ words → w ∈ keys) →
  foldr Z.add 0 ((λ k, count k words) <$> keys) = Z.of_nat (length words).
Proof.
  intros Hnodup. induction words as [|w words IH]; intros Hcover.
  - clear. induction keys as [|k keys IH]; [done|].
    rewrite fmap_cons. cbn [foldr]. by rewrite IH.
  - assert (Hw : w ∈ keys) by (apply Hcover; left).
    assert (Hsplit : foldr Z.add 0 ((λ k, count k (w :: words)) <$> keys)
                     = 1 + foldr Z.add 0 ((λ k, count k words) <$> keys)).
    { clear IH Hcover. induction Hnodup as [|k keys Hk Hnodup IH].
      - by apply elem_of_nil in Hw.
      - rewrite !fmap_cons. cbn [foldr]. rewrite count_cons.
        apply elem_of_cons in Hw as [->|Hw].
        + rewrite decide_True by done.
          assert (Hrest : foldr Z.add 0 ((λ k0, count k0 (k :: words)) <$> keys)
                          = foldr Z.add 0 ((λ k0, count k0 words) <$> keys)).
          { clear IH Hnodup. induction keys as [|k' keys IH]; [done|].
            apply not_elem_of_cons in Hk as [Hne Hk]. rewrite !fmap_cons.
            cbn [foldr]. rewrite count_cons, decide_False by congruence.
            by rewrite IH. }
          rewrite Hrest. lia.
        + rewrite decide_False by (intros ->; done). rewrite IH by done. lia. }
    rewrite Hsplit, IH by (intros w' Hw'; apply Hcover; by right).
    simpl. lia.
Qed.

Lemma total_count_keys l words :
  (∀ w c, (w, c) ∈ l → c = count w words) →
  total_count l = foldr Z.add 0 ((λ k, count k words) <$> l.*1).
Proof.
  unfold total_count. induction l as [|[w c] l IH]; intros Hl; [done|].
  rewrite !fmap_cons. cbn [foldr fst snd]. rewrite (Hl w c) by left.
  rewrite <- list_fmap_compose in IH |- *. rewrite IH; [done|].
  intros w' c' Hin. apply Hl. by right.
Qed.

Lemma total_count_sorted_frequency words :
  total_count (sorted_frequency words) = Z.of_nat (length words).
Proof.
  rewrite (total_count_keys _ words).
  - apply sum_counts; [apply NoDup_sorted_frequency_keys|].
    intros w Hw. apply list_elem_of_fmap. exists (w, count w words).
    split; [done|]. by apply elem_of_sorted_frequency.
  - intros w c Hin. by apply elem_of_sorted_frequency in Hin as [_ ->].
Qed.

Lemma find_most_frequent_words_all words (max_ : Z) :
  distinct_count words ≤ max_ →
  find_most_frequent_words words max_ = sorted_frequency words.
Proof.
  intros Hmax. unfold find_most_frequent_words.
  rewrite length_sorted_frequency, Z.min_r by done.
  rewrite slice_to_nonneg by (unfold distinct_count; lia).
  apply take_ge. rewrite <- length_sorted_frequency. lia.
Qed.

Lemma find_most_frequent_words_entry words (max_ : Z) w c :
  (w, c) ∈ find_most_frequent_words words max_ → w ∈ words ∧ c = count w words.
Proof.
  unfold find_most_frequent_words.
  destruct (slice_to_take (sorted_frequency words)
              (Z.min max_ (Z.of_nat (length (sorted_frequency words)))))
    as [n ->].
  intros Hin%subseteq_take. by apply elem_of_sorted_frequency.
Qed.

(** X13. Every entry of the ranked result counts at least one occurrence
    and at most as many as there are tokens; and when the maximum does not
    cut the result short, the counts add up to the number of tokens. *)
Theorem find_most_frequent_words_counts words (max_ : Z) :
  (∀ w c, (w, c) ∈ find_most_frequent_words words max_ →
          1 ≤ c ≤ Z.of_nat (length words))
  ∧ (distinct_count words ≤ max_ →
     total_count (find_most_frequent_words words max_) = Z.of_nat (length words)).
Proof.
  split.
  - intros w c [Hw ->]%find_most_frequent_words_entry. by apply count_bounds.
  - intros Hmax. rewrite find_most_frequent_words_all by done.
    apply total_count_sorted_frequency.
Qed.

Lemma find_most_frequent_words_counts_witness :
  total_count (find_most_frequent_words ["to"; "be"; "or"; "not"; "to"; "be"] 10)
  = Z.of_nat (length ["to"; "be"; "or"; "not"; "to"; "be"]).
Proof.
  apply (proj2 (find_most_frequent_words_counts
                  ["to"; "be"; "or"; "not"; "to"; "be"] 10)).
  by vm_compute.
Defined.

(** X14. A negative maximum cuts entries off the end of the ranking: the
    result is the ranking without its last [-max_] entries, and it is
    empty only when there are no more than [-max_] distinct tokens. *)
Theorem find_most_frequent_words_negative words (max_ : Z) :
  max_ < 0 →
  find_most_frequent_words words max_
  = take (Z.to_nat (distinct_count words + max_)) (sorted_frequency words)
  ∧ Z.of_nat (length (find_most_frequent_words words max_))
    = Z.max 0 (distinct_count words + max_).
Proof.
  intros Hmax. unfold find_most_frequent_words.
  rewrite length_sorted_frequency.
  assert (0 ≤ distinct_count words) by (unfold distinct_count; lia).
  rewrite Z.min_l by lia. unfold slice_to. rewrite decide_True by done.
  rewrite length_sorted_frequency.
  replace (Z.to_nat (Z.max 0 (distinct_count words + max_)))
    with (Z.to_nat (distinct_count words + max_)) by lia.
  split; [done|].
  rewrite length_take_le; [lia|].
  pose proof (length_sorted_frequency words). lia.
Qed.

Lemma find_most_frequent_words_negative_witness :
  find_most_frequent_words ["a"; "b"; "c"; "a"] (-2)
  = take (Z.to_nat (distinct_count ["a"; "b"; "c"; "a"] + -2))
      (sorted_frequency ["a"; "b"; "c"; "a"])
  ∧ Z.of_nat (length (find_most_frequent_words ["a"; "b"; "c"; "a"] (-2)))
    = Z.max 0 (distinct_count ["a"; "b"; "c"; "a"] + -2).
Proof.
  apply (find_most_frequent_words_negative ["a"; "b"; "c"; "a"] (-2)). lia.
Defined.

(** An empty token list gives an empty result, whatever the maximum. *)
Lemma find_most_frequent_words_nil (max_ : Z) : find_most_frequent_words [] max_ = [].
Proof.
  destruct (find_most_frequent_words [] max_) as [|[w c] l] eqn:Hres; [done|].
  assert (Hin : (w, c) ∈ find_most_frequent_words [] max_) by (rewrite Hres; left).
  apply find_most_frequent_words_entry in Hin as [Hw _]. by apply elem_of_nil in Hw.
Qed.

End RankerMore.

(** * Properties of the pipeline of [run] *)

Section Pipeline.

Implicit Types (text w : string) (c : Z) (self : HtmlText).



Lemma lower_char_cleaned_symbol (d : ascii) :
  Str.lower_char d ∈ cleaned_symbols → Str.lower_char d = d.
Proof.
  intros Hin.
  assert (Hb : bool_decide (Str.lower_char d ∈ cleaned_symbols) = true)
    by (by apply bool_decide_eq_true_2).
  clear Hin. revert Hb.
  destruct d as [[] [] [] [] [] [] [] []]; vm_compute; by intros ?.
Qed.

(** X16. Every word that the pipeline ranks is a lowercase, non-empty
    token that holds no whitespace and none of the cleaned symbols, and it
    is ranked with a count of at least one. *)
Theorem ranked_words_are_clean text (max_ : Z) w c :
  (w, c) ∈ find_most_frequent_words (tokenize (remove_extra_characters text)) max_ →
  w ≠ ""
  ∧ Str.lower w = w
  ∧ (∀ x, occurs x w = true → Str.is_space x = false ∧ x ∉ cleaned_symbols)
  ∧ 1 ≤ c.
Proof.
  intros [Hw ->]%find_most_frequent_words_entry.
  split_and!; [| | |by apply count_bounds].
  - apply list_elem_of_fmap in Hw as (piece & -> & Hpiece).
    rewrite split_pieces in Hpiece.
    apply list_elem_of_filter in Hpiece as [Hne _]. by destruct piece.
  - apply list_elem_of_fmap in Hw as (piece & -> & _). apply lower_idemp.
  - intros x Hx. split.
    + pose proof Hw as Hw'. unfold tokenize in Hw'. rewrite split_pieces in Hw'.
      apply list_elem_of_fmap in Hw' as (piece & -> & Hpiece).
      apply list_elem_of_filter in Hpiece as [_ Hpiece].
      apply occurs_lower in Hx as (c0 & -> & Hc0).
      rewrite is_space_lower_char. by eapply pieces_no_space.
    + intros Hsym.
      destruct (tokenize_occurs _ _ _ Hw Hx) as (c0 & -> & Hc0).
      rewrite (lower_char_cleaned_symbol c0 Hsym) in Hsym.
      by rewrite (cleaned_symbol_absent text c0 Hsym) in Hc0.
Qed.

Lemma ranked_words_are_clean_witness :
  "worlds" ≠ ""
  ∧ Str.lower "worlds" = "worlds"
  ∧ (∀ x, occurs x "worlds" = true → Str.is_space x = false ∧ x ∉ cleaned_symbols)
  ∧ 1 ≤ 2.
Proof.
  apply (ranked_words_are_clean "Hello, world's (WORLDS)!" 10 "worlds" 2).
  compute_done.
Defined.

End Pipeline.
